(** * cfun: function composition with [<<], [>>] and [|]

    A shallow embedding of [cfun.py] and the properties of its composed
    functions.  The module is pure operator overloading on top of
    [functools.partial], so what there is to verify is how Python evaluates
    the three operators on the module's three classes and how the objects
    they build behave when called.

    Python objects are a first-order datatype: the closure [f] that
    [__lshift__] and [__rshift__] define is a constructor holding the two
    variables it captures, a [partial] instance is a constructor holding its
    [func], [args] and [keywords], and code that is not part of the module
    (the functions a caller composes, the classes of a caller's objects) is
    a table of the class [Foreign].  Calls return an [outcome]: a value or a
    raised exception.  A second model, [Store], gives the objects the
    module creates an address in a store, for the claim that combining
    modifies none of them.  The interpreter's recursion limit is not
    modelled. *)

From Stdlib Require Import List ZArith String Bool Lia.
Import ListNotations.

Set Implicit Arguments.
Set Warnings "-register-all".

(** ** Objects, exceptions, outcomes *)

(** The class a [partial] instance was created from: [functools.partial]
    itself or one of the module's two subclasses. *)
Inductive pclass : Type := partial | _LeftFlowing | _RightFlowing.

Inductive obj : Type :=
| ONone
| OInt (z : Z)
| OStr (s : string)
| ONotImplemented
| OFunc (name : string)                   (* a plain function (def, lambda) *)
| OInstance (cls : string)                (* an instance of a caller's class *)
| OClosureL (self other : obj)            (* [f] of [_LeftFlowing.__lshift__] *)
| OClosureR (self other : obj)            (* [f] of [_RightFlowing.__rshift__] *)
| OPartial (cls : pclass) (func : obj) (args : list obj)
           (keywords : list (string * obj))
| O_Compositor.                           (* an instance of [_Compositor] *)

Definition kwargs : Type := list (string * obj).

Record exn : Type := Exn { exn_class : string; exn_msg : string }.

Definition TypeError (msg : string) : exn := Exn "TypeError" msg.
Definition ValueError (msg : string) : exn := Exn "ValueError" msg.

Definition is_TypeError (e : exn) : Prop := exn_class e = "TypeError"%string.

Inductive outcome : Type :=
| Return (v : obj)
| Raise (e : exn).

Definition bind (r : outcome) (k : obj -> outcome) : outcome :=
  match r with
  | Return v => k v
  | Raise e => Raise e
  end.

Declare Scope py_scope.
Delimit Scope py_scope with py.
Notation "x <- c ;; k" := (bind c (fun x => k))
  (at level 100, c at next level, right associativity) : py_scope.
Open Scope py_scope.

(** ** Types of objects *)

Inductive pytype : Type :=
| TNoneType | Tint | Tstr | TNotImplementedType | Tfunction
| Tpartial (c : pclass)
| T_Compositor
| TUser (cls : string).

Definition type_of (o : obj) : pytype :=
  match o with
  | ONone => TNoneType
  | OInt _ => Tint
  | OStr _ => Tstr
  | ONotImplemented => TNotImplementedType
  | OFunc _ | OClosureL _ _ | OClosureR _ _ => Tfunction
  | OInstance c => TUser c
  | OPartial c _ _ _ => Tpartial c
  | O_Compositor => T_Compositor
  end.

Definition pclass_eqb (a b : pclass) : bool :=
  match a, b with
  | partial, partial | _LeftFlowing, _LeftFlowing
  | _RightFlowing, _RightFlowing => true
  | _, _ => false
  end.

Definition pytype_eqb (a b : pytype) : bool :=
  match a, b with
  | TNoneType, TNoneType | Tint, Tint | Tstr, Tstr
  | TNotImplementedType, TNotImplementedType | Tfunction, Tfunction
  | T_Compositor, T_Compositor => true
  | Tpartial c, Tpartial d => pclass_eqb c d
  | TUser c, TUser d => String.eqb c d
  | _, _ => false
  end.

Definition type_name (t : pytype) : string :=
  match t with
  | TNoneType => "NoneType"
  | Tint => "int"
  | Tstr => "str"
  | TNotImplementedType => "NotImplementedType"
  | Tfunction => "function"
  | Tpartial partial => "functools.partial"
  | Tpartial _LeftFlowing => "_LeftFlowing"
  | Tpartial _RightFlowing => "_RightFlowing"
  | T_Compositor => "_Compositor"
  | TUser c => c
  end.

(** ** Code outside the module *)

Inductive binop : Type := LShift | RShift | BitOr.

Definition binop_symbol (op : binop) : string :=
  match op with LShift => "<<" | RShift => ">>" | BitOr => "|" end.

(** What the caller's program supplies: the bodies of its functions, and for
    each of its classes the [__call__] method and the binary operator
    methods, forward ([__lshift__], ...) and reflected ([__rlshift__], ...),
    where the class defines them.  A method receives [self] first. *)
Class Foreign : Type := {
  func_body : string -> list obj -> kwargs -> outcome;
  cls_call : string -> option (obj -> list obj -> kwargs -> outcome);
  cls_binop : string -> binop -> option (obj -> obj -> outcome);
  cls_rbinop : string -> binop -> option (obj -> obj -> outcome)
}.

(** ** Calling an object *)

Definition not_callable (o : obj) : exn :=
  TypeError ("'" ++ type_name (type_of o) ++ "' object is not callable").

(** [callable(o)] *)
Definition callable `{Foreign} (o : obj) : bool :=
  match o with
  | OFunc _ | OClosureL _ _ | OClosureR _ _ | OPartial _ _ _ _ => true
  | OInstance c => match cls_call c with Some _ => true | None => false end
  | _ => false
  end.

(** Setting a key of a dict: an existing key keeps its place and takes the
    new value, a new key goes last. *)
Fixpoint dict_set (d : kwargs) (key : string) (v : obj) : kwargs :=
  match d with
  | [] => [(key, v)]
  | (k, w) :: d' =>
      if String.eqb k key then (k, v) :: d' else (k, w) :: dict_set d' key v
  end.

(** The keywords of a [partial] call: the caller's keywords [e] as they are
    when the instance holds none, else the instance's keywords [d] updated
    with every item of [e]. *)
Definition dict_merge (d e : kwargs) : kwargs :=
  match d with
  | [] => e
  | _ => fold_left (fun acc kv => dict_set acc (fst kv) (snd kv)) e d
  end.

(** Calling [o] with positional arguments [args] and keyword arguments
    [kw].  The two closures are the bodies of the inner [f] of the source:
    [self(other(...))] evaluates its argument, the call of [other], before
    it calls [self]; [other(self(...))] evaluates the call of [self] before
    it calls [other].  Either passes the one result on as the only
    positional argument.  A [partial] instance calls its [func] with its
    own arguments first. *)
Fixpoint call `{Foreign} (o : obj) (args : list obj) (kw : kwargs) : outcome :=
  match o with
  | OFunc name => func_body name args kw
  | OInstance c =>
      match cls_call c with
      | Some m => m o args kw
      | None => Raise (not_callable o)
      end
  | OClosureL self other =>
      r <- call other args kw ;; call self [r] []
  | OClosureR self other =>
      r <- call self args kw ;; call other [r] []
  | OPartial _ func pargs pkw =>
      call func (pargs ++ args)%list (dict_merge pkw kw)
  | _ => Raise (not_callable o)
  end.

(** [o(x)] *)
Definition call1 `{Foreign} (o : obj) (x : obj) : outcome := call o [x] [].

(** ** [functools.partial]

    [cls(func)] for [cls] one of the [partial] classes, with the one
    argument the module always passes.  A [func] that is not callable is
    refused; a [func] that is itself a [partial] instance is flattened: the
    new instance takes over its [func], [args] and [keywords] (objects of
    this model carry no instance attributes, which is when CPython
    flattens). *)
Definition partial_new `{Foreign} (cls : pclass) (func : obj) : outcome :=
  if callable func then
    match func with
    | OPartial _ fn pargs pkw => Return (OPartial cls fn pargs pkw)
    | _ => Return (OPartial cls func [] [])
    end
  else Raise (TypeError "the first argument must be callable").

(** ** The module's classes *)

Module _LeftFlowing.
(** [class _LeftFlowing(partial)] *)

Definition __lshift__ `{Foreign} (self other : obj) : outcome :=
  partial_new _LeftFlowing (OClosureL self other).

End _LeftFlowing.

Module _RightFlowing.
(** [class _RightFlowing(partial)] *)

Definition __rshift__ `{Foreign} (self other : obj) : outcome :=
  partial_new _RightFlowing (OClosureR self other).

Definition __or__ `{Foreign} : obj -> obj -> outcome := __rshift__.

End _RightFlowing.

Module _Compositor.
(** [class _Compositor(object)] *)

Definition __lshift__ `{Foreign} (self func : obj) : outcome :=
  partial_new _LeftFlowing func.

Definition __rshift__ `{Foreign} (self func : obj) : outcome :=
  partial_new _RightFlowing func.

Definition __or__ `{Foreign} : obj -> obj -> outcome := __rshift__.

End _Compositor.

Definition cfun : obj := O_Compositor.

(** ** Binary operators *)

(** The three operators on [int], which return [NotImplemented] for an
    operand that is not an [int]. *)
Definition int_binop (op : binop) (a b : obj) : outcome :=
  match a, b with
  | OInt x, OInt y =>
      match op with
      | LShift =>
          if (y <? 0)%Z then Raise (ValueError "negative shift count")
          else Return (OInt (Z.shiftl x y))
      | RShift =>
          if (y <? 0)%Z then Raise (ValueError "negative shift count")
          else Return (OInt (Z.shiftr x y))
      | BitOr => Return (OInt (Z.lor x y))
      end
  | _, _ => Return ONotImplemented
  end.

(** The method [type(a).__lshift__] (or [__rshift__], [__or__]) where the
    type defines one.  [partial] and [function] define none of the three,
    nor does [str].  ([NoneType] has an [__or__] for building type unions,
    which returns [NotImplemented] for every object of this model; an
    expression evaluates the same with it and without it, and the lookup
    leaves it out.) *)
Definition lookup_binop `{Foreign} (t : pytype) (op : binop)
  : option (obj -> obj -> outcome) :=
  match t, op with
  | Tpartial _LeftFlowing, LShift => Some _LeftFlowing.__lshift__
  | Tpartial _RightFlowing, RShift => Some _RightFlowing.__rshift__
  | Tpartial _RightFlowing, BitOr => Some _RightFlowing.__or__
  | T_Compositor, LShift => Some _Compositor.__lshift__
  | T_Compositor, RShift => Some _Compositor.__rshift__
  | T_Compositor, BitOr => Some _Compositor.__or__
  | Tint, _ => Some (int_binop op)
  | TUser c, _ => cls_binop c op
  | _, _ => None
  end.

(** The reflected method [type(b).__rlshift__] (or [__rrshift__],
    [__ror__]); a reflected method receives its own object first.  None of
    the module's classes defines one. *)
Definition lookup_rbinop `{Foreign} (t : pytype) (op : binop)
  : option (obj -> obj -> outcome) :=
  match t with
  | Tint => Some (fun self other => int_binop op other self)
  | TUser c => cls_rbinop c op
  | _ => None
  end.

Definition unsupported (op : binop) (a b : obj) : exn :=
  TypeError ("unsupported operand type(s) for " ++ binop_symbol op ++ ": '"
             ++ type_name (type_of a) ++ "' and '"
             ++ type_name (type_of b) ++ "'").

(** The second half of [a op b]: the reflected method of [b], tried only
    when the operands have different types. *)
Definition try_reflected `{Foreign} (op : binop) (a b : obj) : outcome :=
  if pytype_eqb (type_of a) (type_of b) then Raise (unsupported op a b)
  else
    match lookup_rbinop (type_of b) op with
    | Some m =>
        r <- m b a ;;
        match r with
        | ONotImplemented => Raise (unsupported op a b)
        | _ => Return r
        end
    | None => Raise (unsupported op a b)
    end.

(** [a op b]: the method of [a]'s type first; the reflected method of [b]'s
    type when [a] has none or it returned [NotImplemented]; [TypeError]
    when neither gives a result.  An exception raised by a method
    propagates.  (Python tries the reflected method first when [b]'s type
    is a subclass of [a]'s that overrides it; the module's classes define
    no reflected method and a caller's classes are not subclasses of
    them.) *)
Definition binary_op `{Foreign} (op : binop) (a b : obj) : outcome :=
  match lookup_binop (type_of a) op with
  | Some m =>
      r <- m a b ;;
      match r with
      | ONotImplemented => try_reflected op a b
      | _ => Return r
      end
  | None => try_reflected op a b
  end.

(** An operand whose type defines no reflected operator. *)
Definition no_reflected `{Foreign} (f : obj) : Prop :=
  forall op, lookup_rbinop (type_of f) op = None.

(** [start op f1 op f2 ... op fn], which Python groups to the left. *)
Fixpoint chain `{Foreign} (op : binop) (start : obj) (fs : list obj) : outcome :=
  match fs with
  | [] => Return start
  | f :: fs' => g <- binary_op op start f ;; chain op g fs'
  end.

(** Calling the result of an expression that may have raised. *)
Definition invoke `{Foreign} (r : outcome) (args : list obj) (kw : kwargs)
  : outcome :=
  g <- r ;; call g args kw.

(** ** The nested call the composed function stands for

    [nested [f1; f2; ...; fn] x] is the expression [f1(f2(...fn(x)...))]
    written by hand: the innermost call is evaluated first and an exception
    ends the evaluation. *)
Fixpoint nested `{Foreign} (fs : list obj) (x : obj) : outcome :=
  match fs with
  | [] => Return x
  | f :: fs' => r <- nested fs' x ;; call1 f r
  end.

(** Data flowing through [fs] in order: each function is called on the
    result of the one before it, and the first exception ends the run. *)
Definition run `{Foreign} (fs : list obj) (r : outcome) : outcome :=
  fold_left (fun acc f => v <- acc ;; call1 f v) fs r.

(** The order in which a chain built with [op] runs the functions it was
    given. *)
Definition run_order (op : binop) (fs : list obj) : list obj :=
  match op with
  | LShift => rev fs
  | RShift | BitOr => fs
  end.

(** The class of the composed functions an operator of [cfun] creates. *)
Definition flowing (op : binop) : pclass :=
  match op with
  | LShift => _LeftFlowing
  | RShift | BitOr => _RightFlowing
  end.

(** The same program with other function bodies. *)
Definition with_bodies (W : Foreign)
  (body : string -> list obj -> kwargs -> outcome) : Foreign :=
  {| func_body := body;
     cls_call := @cls_call W;
     cls_binop := @cls_binop W;
     cls_rbinop := @cls_rbinop W |}.

(** ** A caller's program

    The functions of the spec's scenario, a function that raises, and a
    class [Pipe], callable, whose reflected operators return a string; an
    instance of any other class is not callable and has no operators. *)
Definition demo_func_body (name : string) (args : list obj) (kw : kwargs)
  : outcome :=
  match args, kw with
  | [OInt v], [] =>
      if String.eqb name "double" then Return (OInt (v * 2))
      else if String.eqb name "increment" then Return (OInt (v + 1))
      else if String.eqb name "identity" then Return (OInt v)
      else if String.eqb name "increment_double" then Return (OInt ((v + 1) * 2))
      else if String.eqb name "fail" then Raise (ValueError "boom")
      else Raise (Exn "NameError" name)
  | [v], [] =>
      if String.eqb name "identity" then Return v
      else if String.eqb name "fail" then Raise (ValueError "boom")
      else Raise (TypeError "unsupported operand")
  | _, _ => Raise (TypeError "wrong number of arguments")
  end.

Definition demo : Foreign := {|
  func_body := demo_func_body;
  cls_call := fun c =>
    if String.eqb c "Pipe" then Some (fun _ _ _ => Return ONone) else None;
  cls_binop := fun _ _ => None;
  cls_rbinop := fun c _ =>
    if String.eqb c "Pipe" then Some (fun _ _ => Return (OStr "piped"))
    else None
|}.

Definition double : obj := OFunc "double".
Definition increment : obj := OFunc "increment".
Definition identity : obj := OFunc "identity".
Definition increment_double : obj := OFunc "increment_double".
Definition fail : obj := OFunc "fail".

(** ** Objects with identity

    The model above treats a composed function as a value.  To state that
    combining leaves the existing composed function alone, this module
    gives the objects the module creates an identity: each closure [f] and
    each [partial] instance is a cell of a store, the variables a closure
    captures and the fields of an instance are references, and the two
    combining methods are store transformers.  [reify] reads the object a
    reference stands for back into a value of the model above, and calling
    a reference is calling that value. *)
Module Store.

Inductive ref : Type :=
| Imm (o : obj)        (* a value held directly *)
| Ref (a : nat).       (* the object at address [a] *)

Inductive cell : Type :=
| CClosureL (self other : ref)
| CClosureR (self other : ref)
| CPartial (cls : pclass) (func : ref) (args : list ref)
           (keywords : list (string * ref)).

(** The newest cell first; the address of a cell is the number of cells
    created before it. *)
Definition store : Type := list cell.

Inductive result : Type :=
| HReturn (r : ref)
| HRaise (e : exn).

Fixpoint lookup (s : store) (a : nat) : option cell :=
  match s with
  | [] => None
  | c :: s' => if Nat.eqb a (List.length s') then Some c else lookup s' a
  end.

Definition alloc (s : store) (c : cell) : store * ref :=
  (c :: s, Ref (List.length s)).

Fixpoint reify_list (rec : ref -> option obj) (rs : list ref)
  : option (list obj) :=
  match rs with
  | [] => Some []
  | r :: rs' =>
      match rec r, reify_list rec rs' with
      | Some o, Some os => Some (o :: os)
      | _, _ => None
      end
  end.

Fixpoint reify_kw (rec : ref -> option obj) (kw : list (string * ref))
  : option kwargs :=
  match kw with
  | [] => Some []
  | (k, r) :: kw' =>
      match rec r, reify_kw rec kw' with
      | Some o, Some os => Some ((k, o) :: os)
      | _, _ => None
      end
  end.

Definition reify_cell (rec : ref -> option obj) (c : cell) : option obj :=
  match c with
  | CClosureL self other =>
      match rec self, rec other with
      | Some a, Some b => Some (OClosureL a b)
      | _, _ => None
      end
  | CClosureR self other =>
      match rec self, rec other with
      | Some a, Some b => Some (OClosureR a b)
      | _, _ => None
      end
  | CPartial cls func args kw =>
      match rec func, reify_list rec args, reify_kw rec kw with
      | Some f, Some a, Some k => Some (OPartial cls f a k)
      | _, _, _ => None
      end
  end.

(** The value a reference stands for.  A cell refers to cells that existed
    when it was created, so its fields are read in the store below it. *)
Fixpoint reify (s : store) (r : ref) {struct s} : option obj :=
  match r with
  | Imm o => Some o
  | Ref a =>
      match s with
      | [] => None
      | c :: s' =>
          if Nat.eqb a (List.length s') then reify_cell (reify s') c
          else reify s' r
      end
  end.

(** Calling the object behind a reference. *)
Definition call `{Foreign} (s : store) (g : ref) (args : list obj)
  (kw : kwargs) : option outcome :=
  match reify s g with
  | Some o => Some (call o args kw)
  | None => None
  end.

Definition callable `{Foreign} (s : store) (r : ref) : bool :=
  match r with
  | Imm o => callable o
  | Ref a => match lookup s a with Some _ => true | None => false end
  end.

(** [cls(func)], creating the new instance in the store. *)
Definition partial_new `{Foreign} (s : store) (cls : pclass) (func : ref)
  : store * result :=
  if callable s func then
    let c :=
      match func with
      | Imm (OPartial _ fn pargs pkw) =>
          CPartial cls (Imm fn) (map Imm pargs)
                   (map (fun kv => (fst kv, Imm (snd kv))) pkw)
      | Imm _ => CPartial cls func [] []
      | Ref a =>
          match lookup s a with
          | Some (CPartial _ fn pargs pkw) => CPartial cls fn pargs pkw
          | _ => CPartial cls func [] []
          end
      end in
    let (s', r) := alloc s c in (s', HReturn r)
  else (s, HRaise (TypeError "the first argument must be callable")).

Module _LeftFlowing.

(** The [def f] creates the closure, the [return] the new instance. *)
Definition __lshift__ `{Foreign} (s : store) (self other : ref)
  : store * result :=
  let (s1, f) := alloc s (CClosureL self other) in
  partial_new s1 _LeftFlowing f.

End _LeftFlowing.

Module _RightFlowing.

Definition __rshift__ `{Foreign} (s : store) (self other : ref)
  : store * result :=
  let (s1, f) := alloc s (CClosureR self other) in
  partial_new s1 _RightFlowing f.

Definition __or__ `{Foreign} : store -> ref -> ref -> store * result :=
  __rshift__.

End _RightFlowing.

(** [r] is an object the store does not hold yet. *)
Definition fresh (s : store) (r : ref) : Prop :=
  match r with
  | Ref a => lookup s a = None
  | Imm _ => False
  end.

(** Every object of [s] is in [s'] with the same fields. *)
Definition extends (s s' : store) : Prop :=
  forall a c, lookup s a = Some c -> lookup s' a = Some c.

(** A store for the examples: [g = cfun >> double] at address 0. *)
Definition demo_store : store :=
  [CPartial _RightFlowing (Imm double) [] []].

Module _Compositor.

Definition __lshift__ `{Foreign} (s : store) (self func : ref)
  : store * result :=
  partial_new s _LeftFlowing func.

Definition __rshift__ `{Foreign} (s : store) (self func : ref)
  : store * result :=
  partial_new s _RightFlowing func.

Definition __or__ `{Foreign} : store -> ref -> ref -> store * result :=
  __rshift__.

End _Compositor.

(** The type of the object behind a reference. *)
Definition type_of (s : store) (r : ref) : option pytype :=
  match r with
  | Imm o => Some (type_of o)
  | Ref a =>
      match lookup s a with
      | Some (CPartial c _ _ _) => Some (Tpartial c)
      | Some (CClosureL _ _) | Some (CClosureR _ _) => Some Tfunction
      | None => None
      end
  end.

(** The operator methods of the module's classes. *)
Definition method `{Foreign} (t : pytype) (op : binop)
  : option (store -> ref -> ref -> store * result) :=
  match t, op with
  | Tpartial _LeftFlowing, LShift => Some _LeftFlowing.__lshift__
  | Tpartial _RightFlowing, RShift => Some _RightFlowing.__rshift__
  | Tpartial _RightFlowing, BitOr => Some _RightFlowing.__or__
  | T_Compositor, LShift => Some _Compositor.__lshift__
  | T_Compositor, RShift => Some _Compositor.__rshift__
  | T_Compositor, BitOr => Some _Compositor.__or__
  | _, _ => None
  end.

Definition lift (r : outcome) : result :=
  match r with
  | Return v => HReturn (Imm v)
  | Raise e => HRaise e
  end.

(** [a op b] in the store.  A method of the module's classes runs as a
    store transformer.  Every other case (an operator of [int] or of a
    caller's class, a reflected operator, no operator at all) creates no
    object of the module and is evaluated on the values the operands stand
    for.  A reference to no object does not arise in a program; it is
    answered with an error to keep the function total. *)
Definition binary_op `{Foreign} (op : binop) (s : store) (a b : ref)
  : store * result :=
  match type_of s a with
  | Some t =>
      match method t op with
      | Some m => m s a b
      | None =>
          match reify s a, reify s b with
          | Some va, Some vb => (s, lift (binary_op op va vb))
          | _, _ => (s, HRaise (Exn "SystemError" "reference to no object"))
          end
      end
  | None => (s, HRaise (Exn "SystemError" "reference to no object"))
  end.

(** [start op f1 op f2 ... op fn] in the store. *)
Fixpoint chain `{Foreign} (op : binop) (s : store) (start : ref)
  (fs : list ref) : store * result :=
  match fs with
  | [] => (s, HReturn start)
  | f :: fs' =>
      match binary_op op s start f with
      | (s1, HReturn g) => chain op s1 g fs'
      | (s1, HRaise e) => (s1, HRaise e)
      end
  end.

(** The result [r] of a store computation is the outcome [o] of the value
    model: the same exception, or a reference that stands for the value. *)
Definition agrees (s : store) (r : result) (o : outcome) : Prop :=
  match r, o with
  | HReturn p, Return v => reify s p = Some v
  | HRaise e, Raise e' => e = e'
  | _, _ => False
  end.

End Store.

(** * Properties *)

(** ** Outcomes *)

Lemma bind_assoc (r : outcome) (k1 k2 : obj -> outcome) :
  bind (bind r k1) k2 = bind r (fun v => bind (k1 v) k2).
Proof. destruct r; reflexivity. Qed.

Lemma bind_ext (r : outcome) (k1 k2 : obj -> outcome) :
  (forall v, k1 v = k2 v) -> bind r k1 = bind r k2.
Proof. intros E. destruct r; simpl; auto. Qed.

(** ** Calls *)

Section Calls.
Context `{W : Foreign}.

Lemma call_not_callable (o : obj) (args : list obj) (kw : kwargs) :
  callable o = false -> call o args kw = Raise (not_callable o).
Proof.
  destruct o; simpl; try discriminate; try reflexivity.
  destruct (cls_call cls); [discriminate | reflexivity].
Qed.

Lemma call_Return_callable (o : obj) (args : list obj) (kw : kwargs) (v : obj) :
  call o args kw = Return v -> callable o = true.
Proof.
  intros Hc. destruct (callable o) eqn:E; [reflexivity |].
  rewrite (call_not_callable _ _ _ E) in Hc. discriminate.
Qed.

(** A composed function created from [func] calls like [func]. *)
Lemma partial_new_call (cls : pclass) (func p : obj) :
  partial_new cls func = Return p ->
  forall args kw, call p args kw = call func args kw.
Proof.
  unfold partial_new. destruct (callable func); [| discriminate].
  destruct func; intros [= <-] a k; reflexivity.
Qed.

Lemma partial_new_type (cls : pclass) (func p : obj) :
  partial_new cls func = Return p -> type_of p = Tpartial cls.
Proof.
  unfold partial_new. destruct (callable func); [| discriminate].
  destruct func; intros [= <-]; reflexivity.
Qed.

Lemma partial_new_callable (cls : pclass) (func : obj) :
  callable func = true -> exists p, partial_new cls func = Return p.
Proof.
  unfold partial_new. intros ->. destruct func; eauto.
Qed.

Lemma partial_new_not_callable (cls : pclass) (func : obj) :
  callable func = false ->
  partial_new cls func = Raise (TypeError "the first argument must be callable").
Proof. unfold partial_new. intros ->. reflexivity. Qed.

(** ** Operators on the module's objects *)

(** On [cfun] each operator is the constructor of its class. *)
Lemma binary_op_cfun (op : binop) (f : obj) :
  binary_op op cfun f = partial_new (flowing op) f.
Proof.
  unfold binary_op, cfun.
  assert (E : forall c, (r <- partial_new c f ;;
                         match r with
                         | ONotImplemented => try_reflected op O_Compositor f
                         | _ => Return r
                         end) = partial_new c f).
  { intros c. unfold partial_new. destruct (callable f); [| reflexivity].
    destruct f; reflexivity. }
  destruct op; simpl; apply E.
Qed.

Lemma binary_op_rightward (op : binop) (g f : obj) :
  type_of g = Tpartial _RightFlowing -> op <> LShift ->
  binary_op op g f = Return (OPartial _RightFlowing (OClosureR g f) [] []).
Proof.
  intros Hg Hop. unfold binary_op. rewrite Hg.
  destruct op; [congruence | reflexivity | reflexivity].
Qed.

Lemma binary_op_leftward (g f : obj) :
  type_of g = Tpartial _LeftFlowing ->
  binary_op LShift g f = Return (OPartial _LeftFlowing (OClosureL g f) [] []).
Proof. intros Hg. unfold binary_op. rewrite Hg. reflexivity. Qed.

(** ** Chains *)

Lemma run_cons (f : obj) (fs : list obj) (r : outcome) :
  run (f :: fs) r = run fs (v <- r ;; call1 f v).
Proof. reflexivity. Qed.

Lemma run_app (fs gs : list obj) (r : outcome) :
  run (fs ++ gs) r = run gs (run fs r).
Proof. unfold run. apply fold_left_app. Qed.

Lemma run_Raise (fs : list obj) (e : exn) : run fs (Raise e) = Raise e.
Proof. induction fs as [|f fs IH]; [reflexivity | rewrite run_cons; exact IH]. Qed.

Lemma run_snoc (fs : list obj) (f : obj) (r : outcome) :
  run (fs ++ [f]) r = (v <- run fs r ;; call1 f v).
Proof. rewrite run_app. reflexivity. Qed.

(** The nested call runs its functions innermost first. *)
Lemma nested_run (fs : list obj) (x : obj) :
  nested fs x = run (rev fs) (Return x).
Proof.
  induction fs as [|f fs IH]; [reflexivity |].
  simpl. rewrite run_snoc, IH. reflexivity.
Qed.

Lemma nested_rev_run (fs : list obj) (x : obj) :
  nested (rev fs) x = run fs (Return x).
Proof. rewrite nested_run, rev_involutive. reflexivity. Qed.

(** One rightward step: the new composed function calls the existing one
    with the caller's arguments and [f] on its result. *)
Lemma rightward_step (g f : obj) (args : list obj) (kw : kwargs) :
  call (OPartial _RightFlowing (OClosureR g f) [] []) args kw
  = (r <- call g args kw ;; call1 f r).
Proof. reflexivity. Qed.

(** One leftward step: the new composed function calls [f] with the
    caller's arguments and the existing one on its result. *)
Lemma leftward_step (g f : obj) (args : list obj) (kw : kwargs) :
  call (OPartial _LeftFlowing (OClosureL g f) [] []) args kw
  = (r <- call f args kw ;; call1 g r).
Proof. reflexivity. Qed.

Lemma chain_rightward (op : binop) (fs : list obj) :
  op <> LShift ->
  forall g, type_of g = Tpartial _RightFlowing ->
  exists g', chain op g fs = Return g'
             /\ type_of g' = Tpartial _RightFlowing
             /\ forall args kw, call g' args kw = run fs (call g args kw).
Proof.
  intros Hop. induction fs as [|f fs IH]; intros g Hg.
  - exists g. auto.
  - simpl chain. rewrite (binary_op_rightward _ f Hg Hop). simpl bind.
    destruct (IH (OPartial _RightFlowing (OClosureR g f) [] []) eq_refl)
      as (g' & Hc & Ht & Hcall).
    exists g'. split; [exact Hc |]. split; [exact Ht |].
    intros args kw. rewrite Hcall, rightward_step. reflexivity.
Qed.

Lemma chain_leftward (fs : list obj) :
  forall g, type_of g = Tpartial _LeftFlowing ->
  exists g', chain LShift g fs = Return g'
             /\ type_of g' = Tpartial _LeftFlowing
             /\ forall x, call1 g' x = (v <- nested fs x ;; call1 g v).
Proof.
  induction fs as [|f fs IH]; intros g Hg.
  - exists g. auto.
  - simpl chain. rewrite (binary_op_leftward _ f Hg). simpl bind.
    destruct (IH (OPartial _LeftFlowing (OClosureL g f) [] []) eq_refl)
      as (g' & Hc & Ht & Hcall).
    exists g'. split; [exact Hc |]. split; [exact Ht |].
    intros x. rewrite Hcall. simpl nested. rewrite bind_assoc.
    apply bind_ext. intros v. apply leftward_step.
Qed.

(** The first combine: [cfun op f1] is a composed function that calls like
    [f1]. *)
Lemma first_combine (op : binop) (f1 : obj) :
  callable f1 = true ->
  exists p, binary_op op cfun f1 = Return p
            /\ type_of p = Tpartial (flowing op)
            /\ forall args kw, call p args kw = call f1 args kw.
Proof.
  intros Hf. rewrite binary_op_cfun.
  destruct (partial_new_callable (flowing op) _ Hf) as (p & Hp).
  exists p. split; [exact Hp |]. split.
  - exact (partial_new_type _ _ Hp).
  - exact (partial_new_call _ _ Hp).
Qed.

(** Every chain of callables from [cfun] is built without an error, and
    calling it runs the functions in the chain's order. *)
Lemma chain_cfun (op : binop) (fs : list obj) :
  fs <> [] -> Forall (fun f => callable f = true) fs ->
  exists g, chain op cfun fs = Return g
            /\ type_of g = Tpartial (flowing op)
            /\ forall x, call1 g x = run (run_order op fs) (Return x).
Proof.
  destruct fs as [|f1 fs]; [congruence |]. intros _ Hall.
  inversion Hall as [|? ? Hf1 _]; subst.
  destruct (first_combine op _ Hf1) as (p & Hp & Ht & Hcall).
  simpl chain. rewrite Hp. simpl bind.
  destruct op.
  - destruct (chain_leftward fs _ Ht) as (g & Hc & Hg & Hrun).
    exists g. split; [exact Hc |]. split; [exact Hg |]. intros x.
    rewrite Hrun. unfold run_order. simpl rev. rewrite run_snoc, nested_run.
    apply bind_ext. intros v. apply Hcall.
  - destruct (@chain_rightward RShift fs ltac:(discriminate) _ Ht)
      as (g & Hc & Hg & Hrun).
    exists g. split; [exact Hc |]. split; [exact Hg |]. intros x.
    unfold call1. rewrite Hrun, Hcall. reflexivity.
  - destruct (@chain_rightward BitOr fs ltac:(discriminate) _ Ht)
      as (g & Hc & Hg & Hrun).
    exists g. split; [exact Hc |]. split; [exact Hg |]. intros x.
    unfold call1. rewrite Hrun, Hcall. reflexivity.
Qed.

(** C1. Rightward chains run in construction order: for callables
    [f1 .. fn], [n >= 1], the chain [cfun >> f1 >> ... >> fn] is built
    without an error and, called on [x], evaluates as the nested call
    [fn(...f2(f1(x))...)], which is [f1] on [x] and every later function on
    the result before it. *)
Theorem rightward_chain_forward_order (fs : list obj) (x : obj) :
  fs <> [] -> Forall (fun f => callable f = true) fs ->
  exists g, chain RShift cfun fs = Return g
            /\ call1 g x = nested (rev fs) x
            /\ call1 g x = run fs (Return x).
Proof.
  intros Hne Hall.
  destruct (chain_cfun RShift Hne Hall) as (g & Hc & _ & Hrun).
  exists g. split; [exact Hc |].
  rewrite nested_rev_run. split; apply Hrun.
Qed.

(** C2. Leftward chains run against construction order: for callables
    [f1 .. fn], [n >= 1], the chain [cfun << f1 << ... << fn] is built
    without an error and, called on [x], evaluates as the nested call
    [f1(f2(...fn(x)...))]: the function combined last runs first, on the
    input, and the one combined first runs last. *)
Theorem leftward_chain_reverse_order (fs : list obj) (x : obj) :
  fs <> [] -> Forall (fun f => callable f = true) fs ->
  exists g, chain LShift cfun fs = Return g
            /\ call1 g x = nested fs x
            /\ call1 g x = run (rev fs) (Return x).
Proof.
  intros Hne Hall.
  destruct (chain_cfun LShift Hne Hall) as (g & Hc & _ & Hrun).
  exists g. split; [exact Hc |].
  rewrite nested_run. split; apply Hrun.
Qed.

(** The same with any positional and keyword arguments, as the closures
    pass them: they go to the function that runs first, every other
    function receives the one result before it. *)
Lemma chain_snoc (op : binop) (fs : list obj) (f : obj) :
  forall g,
    chain op g (fs ++ [f]) = (g1 <- chain op g fs ;; binary_op op g1 f).
Proof.
  induction fs as [|f0 fs IH]; intros g; simpl.
  - destruct (binary_op op g f); reflexivity.
  - destruct (binary_op op g f0); simpl; auto.
Qed.

Lemma run_bind (fs : list obj) (r : outcome) :
  run fs r = (v <- r ;; run fs (Return v)).
Proof. destruct r; [reflexivity | apply run_Raise]. Qed.

Lemma rightward_chain_args (f1 : obj) (fs : list obj) :
  Forall (fun f => callable f = true) (f1 :: fs) ->
  exists g, chain RShift cfun (f1 :: fs) = Return g
            /\ forall args kw, call g args kw = run fs (call f1 args kw).
Proof.
  intros Hall. inversion Hall as [|? ? Hf1 _]; subst.
  destruct (first_combine RShift _ Hf1) as (p & Hp & Ht & Hcall).
  destruct (@chain_rightward RShift fs ltac:(discriminate) _ Ht)
    as (g & Hc & _ & Hrun).
  exists g. simpl chain. rewrite Hp. split; [exact Hc |].
  intros args kw. rewrite Hrun, Hcall. reflexivity.
Qed.

Lemma leftward_chain_args (fs : list obj) (fn : obj) :
  Forall (fun f => callable f = true) (fs ++ [fn]) ->
  exists g, chain LShift cfun (fs ++ [fn]) = Return g
            /\ forall args kw, call g args kw = run (rev fs) (call fn args kw).
Proof.
  intros Hall. apply Forall_app in Hall. destruct Hall as [Hfs Hfn].
  inversion Hfn as [|? ? Hn _]; subst. rewrite chain_snoc.
  destruct fs as [|f1 fs].
  - destruct (first_combine LShift _ Hn) as (p & Hp & _ & Hcall).
    exists p. split; [exact Hp | exact Hcall].
  - destruct (@chain_cfun LShift (f1 :: fs) ltac:(discriminate) Hfs)
      as (g1 & Hc & Ht & Hrun).
    rewrite Hc. simpl bind. rewrite (binary_op_leftward _ fn Ht).
    eexists. split; [reflexivity |].
    intros args kw. rewrite leftward_step, (run_bind (rev (f1 :: fs))).
    apply bind_ext. intros v. apply Hrun.
Qed.

End Calls.

(** The scenario of the spec: [(cfun >> double >> increment)(3) == 7]. *)
Lemma rightward_chain_scenario :
  exists g, @chain demo RShift cfun [double; increment] = Return g
            /\ @call1 demo g (OInt 3) = Return (OInt 7).
Proof.
  destruct (@rightward_chain_forward_order demo [double; increment] (OInt 3))
    as (g & Hc & Hn & _).
  - discriminate.
  - repeat constructor.
  - exists g. split; [exact Hc | rewrite Hn; reflexivity].
Defined.

(** The scenario of the spec: [(cfun << double << increment)(3) == 8]. *)
Lemma leftward_chain_scenario :
  exists g, @chain demo LShift cfun [double; increment] = Return g
            /\ @call1 demo g (OInt 3) = Return (OInt 8).
Proof.
  destruct (@leftward_chain_reverse_order demo [double; increment] (OInt 3))
    as (g & Hc & Hn & _).
  - discriminate.
  - repeat constructor.
  - exists g. split; [exact Hc | rewrite Hn; reflexivity].
Defined.

(** ** Errors of the composed functions *)

Section Errors.
Context `{W : Foreign}.

(** A run raises exactly when one of its functions raises on the value
    that reached it. *)
Lemma run_Raise_iff (fs : list obj) :
  forall x e,
    run fs (Return x) = Raise e <->
    exists pre f post v,
      fs = (pre ++ f :: post)%list
      /\ run pre (Return x) = Return v /\ call1 f v = Raise e.
Proof.
  induction fs as [|f0 fs IH]; intros x e.
  - split; [discriminate |].
    intros (pre & f & post & v & E & _). destruct pre; discriminate.
  - rewrite run_cons. simpl bind. destruct (call1 f0 x) as [y|e0] eqn:E0.
    + rewrite IH. split; intros (pre & f & post & v & E & Hr & Hf).
      * exists (f0 :: pre), f, post, v. subst fs.
        split; [reflexivity |]. split; [| exact Hf].
        rewrite run_cons. simpl bind. rewrite E0. exact Hr.
      * destruct pre as [|p pre]; injection E as E1 E2; subst.
        -- injection Hr as Hr. subst v. congruence.
        -- rewrite run_cons in Hr. simpl bind in Hr. rewrite E0 in Hr.
           exists pre, f, post, v. auto.
    + rewrite run_Raise. split.
      * intros [= ->]. exists [], f0, fs, x. auto.
      * intros (pre & f & post & v & E & Hr & Hf).
        destruct pre as [|p pre]; injection E as E1 E2; subst.
        -- injection Hr as Hr. subst v. congruence.
        -- rewrite run_cons in Hr. simpl bind in Hr.
           rewrite E0, run_Raise in Hr. discriminate.
Qed.

(** Building a chain never runs a function: other function bodies give
    the same chain. *)
Lemma chain_ignores_bodies (body : string -> list obj -> kwargs -> outcome)
  (op : binop) (fs : list obj) :
  forall g, @chain (with_bodies W body) op g fs = chain op g fs.
Proof.
  induction fs as [|f fs IH]; intros g; [reflexivity |].
  simpl chain.
  change (@binary_op (with_bodies W body) op g f) with (binary_op op g f).
  destruct (binary_op op g f); simpl; auto.
Qed.

(** C3. Errors pass through unchanged.  For a chain of callables built
    with any of the three operators: building it succeeds whatever the
    functions would do when called (with any function bodies the chain is
    the same object); and calling it on [x] raises [e] exactly when some
    function of the chain, reached by the values returned before it, raises
    [e] - so the error of the function is the error of the call, and the
    wrapper raises nothing of its own. *)
Theorem errors_propagate_unchanged (op : binop) (fs : list obj) (x : obj) :
  fs <> [] -> Forall (fun f => callable f = true) fs ->
  exists g,
    chain op cfun fs = Return g
    /\ (forall body, @chain (with_bodies W body) op cfun fs = Return g)
    /\ forall e,
         call1 g x = Raise e <->
         exists pre f post v,
           run_order op fs = (pre ++ f :: post)%list
           /\ run pre (Return x) = Return v /\ call1 f v = Raise e.
Proof.
  intros Hne Hall.
  destruct (chain_cfun op Hne Hall) as (g & Hc & _ & Hrun).
  exists g. split; [exact Hc |]. split.
  - intros body. rewrite chain_ignores_bodies. exact Hc.
  - intros e. rewrite Hrun. apply run_Raise_iff.
Qed.

(** C10. [cfun] cannot be called: with any arguments the call raises the
    [TypeError] of an object that is not callable, while everything a
    combine on [cfun] returns is callable. *)
Theorem compositor_not_callable (args : list obj) (kw : kwargs) :
  call cfun args kw = Raise (not_callable cfun)
  /\ is_TypeError (not_callable cfun)
  /\ callable cfun = false
  /\ forall op f g, binary_op op cfun f = Return g -> callable g = true.
Proof.
  split; [reflexivity |]. split; [reflexivity |]. split; [reflexivity |].
  intros op f g. rewrite binary_op_cfun. intros Hp.
  apply partial_new_type in Hp. destruct g; try discriminate. reflexivity.
Qed.

(** C9. A non-callable operand is refused at once by [cfun] and only at
    call time by a composed function.  For [x] not callable: every operator
    of [cfun] raises the constructor's [TypeError] when combining;
    extending a composed function with [x] in its direction returns a new
    composed function, and calling that one raises the [TypeError] of
    calling [x], for a leftward one before anything else runs, for a
    rightward one once the existing chain has returned. *)
Theorem non_callable_error_timing (x : obj) :
  callable x = false ->
  (forall op,
      binary_op op cfun x
      = Raise (TypeError "the first argument must be callable"))
  /\ (forall g op,
        type_of g = Tpartial _RightFlowing -> op <> LShift ->
        exists g',
          binary_op op g x = Return g'
          /\ (forall args kw,
                call g' args kw
                = (_ <- call g args kw ;; Raise (not_callable x)))
          /\ forall args kw v,
               call g args kw = Return v ->
               call g' args kw = Raise (not_callable x))
  /\ (forall g,
        type_of g = Tpartial _LeftFlowing ->
        exists g',
          binary_op LShift g x = Return g'
          /\ forall args kw, call g' args kw = Raise (not_callable x))
  /\ is_TypeError (not_callable x).
Proof.
  intros Hx. split; [| split; [| split]].
  - intros op. rewrite binary_op_cfun. apply partial_new_not_callable, Hx.
  - intros g op Hg Hop. eexists. split; [apply binary_op_rightward; trivial |].
    assert (E : forall args kw,
               call (OPartial _RightFlowing (OClosureR g x) [] []) args kw
               = (_ <- call g args kw ;; Raise (not_callable x))).
    { intros args kw. rewrite rightward_step. apply bind_ext.
      intros v. apply call_not_callable, Hx. }
    split; [exact E |].
    intros args kw v Hv. rewrite E, Hv. reflexivity.
  - intros g Hg. eexists. split; [apply binary_op_leftward; trivial |].
    intros args kw. rewrite leftward_step.
    rewrite (call_not_callable _ _ _ Hx). reflexivity.
  - reflexivity.
Qed.

End Errors.

Lemma non_callable_error_timing_int :
  (forall op,
      @binary_op demo op cfun (OInt 5)
      = Raise (TypeError "the first argument must be callable"))
  /\ @invoke demo (@chain demo RShift cfun [double; OInt 5]) [OInt 3] []
     = Raise (TypeError "'int' object is not callable")
  /\ @invoke demo (@chain demo LShift cfun [double; OInt 5]) [OInt 3] []
     = Raise (TypeError "'int' object is not callable").
Proof.
  destruct (@non_callable_error_timing demo (OInt 5) eq_refl)
    as (Hfirst & _ & _ & _).
  split; [exact Hfirst |]. split; reflexivity.
Defined.

(** ** The operators of a chain *)

Section Operators.
Context `{W : Foreign}.

Lemma unsupported_without_methods (op : binop) (a b : obj) :
  lookup_binop (type_of a) op = None ->
  lookup_rbinop (type_of b) op = None ->
  binary_op op a b = Raise (unsupported op a b).
Proof.
  intros Ha Hb. unfold binary_op, try_reflected. rewrite Ha, Hb.
  destruct (pytype_eqb (type_of a) (type_of b)); reflexivity.
Qed.

(** C4. No operator across directions.  A leftward composed function
    defines neither [>>] nor [|] and a rightward one no [<<]; with an
    operand that defines no reflected operator the expression raises
    Python's own [TypeError] for unsupported operand types. *)
Theorem cross_direction_unsupported (g h f : obj) :
  type_of g = Tpartial _LeftFlowing ->
  type_of h = Tpartial _RightFlowing ->
  no_reflected f ->
  binary_op RShift g f = Raise (unsupported RShift g f)
  /\ binary_op BitOr g f = Raise (unsupported BitOr g f)
  /\ binary_op LShift h f = Raise (unsupported LShift h f)
  /\ (forall op a b, is_TypeError (unsupported op a b))
  /\ lookup_binop (type_of g) RShift = None
  /\ lookup_binop (type_of g) BitOr = None
  /\ lookup_binop (type_of h) LShift = None.
Proof.
  intros Hg Hh Hf.
  assert (L1 : lookup_binop (type_of g) RShift = None) by (rewrite Hg; reflexivity).
  assert (L2 : lookup_binop (type_of g) BitOr = None) by (rewrite Hg; reflexivity).
  assert (L3 : lookup_binop (type_of h) LShift = None) by (rewrite Hh; reflexivity).
  repeat match goal with |- _ /\ _ => split end; trivial;
    try (apply unsupported_without_methods; [assumption | apply Hf]).
  intros op a b. reflexivity.
Qed.

Lemma chain_pipe_rightward (fs : list obj) :
  forall g, type_of g = Tpartial _RightFlowing ->
            chain BitOr g fs = chain RShift g fs.
Proof.
  induction fs as [|f fs IH]; intros g Hg; [reflexivity |].
  simpl chain.
  rewrite (@binary_op_rightward _ BitOr g f Hg ltac:(discriminate)).
  rewrite (@binary_op_rightward _ RShift g f Hg ltac:(discriminate)).
  simpl bind. apply IH. reflexivity.
Qed.

(** C5. [|] is [>>]: on [cfun] and on a rightward composed function the
    two operators return the same result for every operand, so chains
    spelled with either are the same object and in particular
    [(cfun | f1 | f2)(x)] is [(cfun >> f1 >> f2)(x)]. *)
Theorem pipe_is_rshift :
  (forall f, binary_op BitOr cfun f = binary_op RShift cfun f)
  /\ (forall g f, type_of g = Tpartial _RightFlowing ->
                  binary_op BitOr g f = binary_op RShift g f)
  /\ (forall fs, chain BitOr cfun fs = chain RShift cfun fs)
  /\ (forall f1 f2 x,
        invoke (chain BitOr cfun [f1; f2]) [x] []
        = invoke (chain RShift cfun [f1; f2]) [x] []).
Proof.
  assert (H1 : forall f, binary_op BitOr cfun f = binary_op RShift cfun f).
  { intros f. rewrite !binary_op_cfun. reflexivity. }
  assert (H3 : forall fs, chain BitOr cfun fs = chain RShift cfun fs).
  { intros [|f fs]; [reflexivity |]. simpl chain. rewrite H1.
    destruct (binary_op RShift cfun f) as [p|e] eqn:E; [| reflexivity].
    simpl bind. apply chain_pipe_rightward.
    rewrite binary_op_cfun in E. exact (partial_new_type _ _ E). }
  split; [exact H1 |]. split; [| split].
  - intros g f Hg.
    rewrite (@binary_op_rightward _ BitOr g f Hg ltac:(discriminate)).
    rewrite (@binary_op_rightward _ RShift g f Hg ltac:(discriminate)).
    reflexivity.
  - exact H3.
  - intros f1 f2 x. rewrite H3. reflexivity.
Qed.

(** C7. Rightward combination is associative: for [k] with
    [k(v) = h(g(v))], calling [((cfun >> f) >> g) >> h] and calling
    [(cfun >> f) >> k] on [x] give the same outcome. *)
Theorem rightward_associative (f g h k x : obj) :
  (forall v, call1 k v = (r <- call1 g v ;; call1 h r)) ->
  invoke (chain RShift cfun [f; g; h]) [x] []
  = invoke (chain RShift cfun [f; k]) [x] [].
Proof.
  intros Hk. simpl chain. rewrite binary_op_cfun.
  destruct (partial_new (flowing RShift) f) as [p|e] eqn:E; [| reflexivity].
  simpl bind. pose proof (partial_new_type _ _ E) as Hp.
  rewrite (@binary_op_rightward _ RShift p g Hp ltac:(discriminate)).
  rewrite (@binary_op_rightward _ RShift p k Hp ltac:(discriminate)).
  unfold invoke. simpl bind. rewrite bind_assoc.
  apply bind_ext. intros v. symmetry. apply Hk.
Qed.

(** C8. Identity law: for a function that returns its argument,
    [cfun >> identity] is built without an error and returns [x] when
    called on [x]. *)
Theorem identity_law (identity x : obj) :
  (forall v, call1 identity v = Return v) ->
  exists g, binary_op RShift cfun identity = Return g /\ call1 g x = Return x.
Proof.
  intros Hid.
  assert (Hc : callable identity = true)
    by exact (call_Return_callable _ _ _ (Hid ONone)).
  destruct (first_combine RShift _ Hc) as (g & Hg & _ & Hcall).
  exists g. split; [exact Hg |]. unfold call1. rewrite Hcall. apply Hid.
Qed.

End Operators.

(** The middle function of a chain raises: its error is the error of the
    call. *)
Lemma errors_propagate_scenario :
  exists g, @chain demo RShift cfun [double; fail; increment] = Return g
            /\ @call1 demo g (OInt 3) = Raise (ValueError "boom").
Proof.
  destruct (@errors_propagate_unchanged demo RShift
              [double; fail; increment] (OInt 3))
    as (g & Hc & _ & Hiff).
  - discriminate.
  - repeat constructor.
  - exists g. split; [exact Hc |]. apply Hiff.
    exists [double], fail, [increment], (OInt 6).
    split; [reflexivity |]. split; reflexivity.
Defined.

Lemma cross_direction_scenario :
  @binary_op demo RShift (OPartial _LeftFlowing double [] []) increment
  = Raise (TypeError
      "unsupported operand type(s) for >>: '_LeftFlowing' and 'function'")
  /\ @binary_op demo BitOr (OPartial _LeftFlowing double [] []) increment
     = Raise (TypeError
         "unsupported operand type(s) for |: '_LeftFlowing' and 'function'")
  /\ @binary_op demo LShift (OPartial _RightFlowing double [] []) increment
     = Raise (TypeError
         "unsupported operand type(s) for <<: '_RightFlowing' and 'function'").
Proof.
  destruct (@cross_direction_unsupported demo
              (OPartial _LeftFlowing double [] [])
              (OPartial _RightFlowing double [] []) increment
              eq_refl eq_refl (fun op => eq_refl))
    as (H1 & H2 & H3 & _).
  split; [exact H1 |]. split; [exact H2 | exact H3].
Defined.

(** The hypothesis of C4 is needed: an operand whose class defines the
    reflected operator answers the expression itself. *)
Example reflected_operand_answers :
  @binary_op demo RShift (OPartial _LeftFlowing double [] []) (OInstance "Pipe")
  = Return (OStr "piped").
Proof. reflexivity. Qed.

Lemma rightward_associative_scenario :
  @invoke demo (@chain demo RShift cfun [double; increment; double]) [OInt 3] []
  = @invoke demo (@chain demo RShift cfun [double; increment_double]) [OInt 3] [].
Proof.
  apply (@rightward_associative demo double increment double increment_double
           (OInt 3)).
  intros v. destruct v; reflexivity.
Defined.

Lemma identity_law_scenario :
  exists g, @binary_op demo RShift cfun identity = Return g
            /\ @call1 demo g (OInt 3) = Return (OInt 3).
Proof.
  apply (@identity_law demo identity (OInt 3)).
  intros v. destruct v; reflexivity.
Defined.

(** ** Combining creates, it does not modify *)

Section Identity.
Context `{W : Foreign}.

Lemma lookup_lt (s : Store.store) (a : nat) (c : Store.cell) :
  Store.lookup s a = Some c -> a < List.length s.
Proof.
  induction s as [|c0 s IH]; simpl; [discriminate |].
  destruct (Nat.eqb_spec a (List.length s)); intros Hl; [lia |].
  specialize (IH Hl). lia.
Qed.

Lemma lookup_beyond (s : Store.store) (a : nat) :
  List.length s <= a -> Store.lookup s a = None.
Proof.
  intros Hle. destruct (Store.lookup s a) eqn:E; [| reflexivity].
  apply lookup_lt in E. lia.
Qed.

Lemma extends_cons (s : Store.store) (c : Store.cell) :
  Store.extends s (c :: s).
Proof.
  intros a c0 Hl. simpl.
  destruct (Nat.eqb_spec a (List.length s)) as [->|]; [| exact Hl].
  apply lookup_lt in Hl. lia.
Qed.

Lemma extends_trans (s1 s2 s3 : Store.store) :
  Store.extends s1 s2 -> Store.extends s2 s3 -> Store.extends s1 s3.
Proof. unfold Store.extends. auto. Qed.

Lemma reify_lt (s : Store.store) (a : nat) (o : obj) :
  Store.reify s (Store.Ref a) = Some o -> a < List.length s.
Proof.
  induction s as [|c s IH]; simpl; [discriminate |].
  destruct (Nat.eqb_spec a (List.length s)); intros Hr; [lia |].
  specialize (IH Hr). lia.
Qed.

(** A new cell does not change what an existing reference stands for. *)
Lemma reify_cons (s : Store.store) (c : Store.cell) (r : Store.ref) (o : obj) :
  Store.reify s r = Some o -> Store.reify (c :: s) r = Some o.
Proof.
  destruct r as [v|a]; [destruct s; auto |].
  intros Hr. simpl.
  destruct (Nat.eqb_spec a (List.length s)) as [->|]; [| exact Hr].
  apply reify_lt in Hr. lia.
Qed.

(** Creating an instance from a closure that was just created. *)
Lemma partial_new_closure (s : Store.store) (cls : pclass) (c : Store.cell) :
  (forall k fn pa pk, c <> Store.CPartial k fn pa pk) ->
  Store.partial_new (c :: s) cls (Store.Ref (List.length s))
  = (Store.CPartial cls (Store.Ref (List.length s)) [] [] :: c :: s,
     Store.HReturn (Store.Ref (S (List.length s)))).
Proof.
  intros Hc. unfold Store.partial_new, Store.callable. simpl Store.lookup.
  rewrite Nat.eqb_refl. destruct c; try reflexivity.
  exfalso. eapply Hc. reflexivity.
Qed.

(** What either combining method does to the store: two new cells on top,
    the closure and the instance holding it. *)
Lemma rshift_store (s : Store.store) (g f : Store.ref) :
  Store._RightFlowing.__rshift__ s g f
  = (Store.CPartial _RightFlowing (Store.Ref (List.length s)) [] []
       :: Store.CClosureR g f :: s,
     Store.HReturn (Store.Ref (S (List.length s)))).
Proof.
  unfold Store._RightFlowing.__rshift__, Store.alloc. apply partial_new_closure.
  intros k fn pa pk. discriminate.
Qed.

Lemma lshift_store (s : Store.store) (g f : Store.ref) :
  Store._LeftFlowing.__lshift__ s g f
  = (Store.CPartial _LeftFlowing (Store.Ref (List.length s)) [] []
       :: Store.CClosureL g f :: s,
     Store.HReturn (Store.Ref (S (List.length s)))).
Proof.
  unfold Store._LeftFlowing.__lshift__, Store.alloc. apply partial_new_closure.
  intros k fn pa pk. discriminate.
Qed.

(** The frame of a combine that put the cells [c2 :: c1 :: s] on [s] and
    returned the upper one. *)
Lemma two_cells_frame (s : Store.store) (c1 c2 : Store.cell)
  (g : Store.ref) (og : obj) :
  Store.reify s g = Some og ->
  Store.fresh s (Store.Ref (S (List.length s)))
  /\ Store.Ref (S (List.length s)) <> g
  /\ Store.extends s (c2 :: c1 :: s)
  /\ Store.reify (c2 :: c1 :: s) g = Some og
  /\ forall args kw,
       Store.call (c2 :: c1 :: s) g args kw = Store.call s g args kw.
Proof.
  intros Hg. split; [| split; [| split; [| split]]].
  - apply lookup_beyond. lia.
  - intros <-. apply reify_lt in Hg. lia.
  - eapply extends_trans; apply extends_cons.
  - exact (@reify_cons _ c2 _ _ (@reify_cons _ c1 _ _ Hg)).
  - intros args kw.
    unfold Store.call.
    rewrite (@reify_cons _ c2 _ _ (@reify_cons _ c1 _ _ Hg)), Hg.
    reflexivity.
Qed.

(** C6. A composed function is immutable.  Combining an existing composed
    function [g] with [f] in [g]'s direction returns an object that did not
    exist before and is not [g], every object that existed keeps its
    fields, [g] stands for the same value and so gives the same outcome on
    every call after the combine as before it, and the new object is the
    composed function the operator of the value model returns. *)
Theorem combine_leaves_original_unchanged (s : Store.store)
  (g f : Store.ref) (vg vf : obj) :
  Store.reify s g = Some vg ->
  Store.reify s f = Some vf ->
  (type_of vg = Tpartial _RightFlowing ->
   exists s' g' vg',
     Store._RightFlowing.__rshift__ s g f = (s', Store.HReturn g')
     /\ Store.fresh s g' /\ g' <> g
     /\ Store.extends s s'
     /\ Store.reify s' g = Some vg
     /\ (forall args kw, Store.call s' g args kw = Store.call s g args kw)
     /\ Store.reify s' g' = Some vg'
     /\ binary_op RShift vg vf = Return vg'
     /\ type_of vg' = Tpartial _RightFlowing)
  /\ (type_of vg = Tpartial _LeftFlowing ->
      exists s' g' vg',
        Store._LeftFlowing.__lshift__ s g f = (s', Store.HReturn g')
        /\ Store.fresh s g' /\ g' <> g
        /\ Store.extends s s'
        /\ Store.reify s' g = Some vg
        /\ (forall args kw, Store.call s' g args kw = Store.call s g args kw)
        /\ Store.reify s' g' = Some vg'
        /\ binary_op LShift vg vf = Return vg'
        /\ type_of vg' = Tpartial _LeftFlowing).
Proof.
  intros Hg Hf. split; intros Ht.
  - destruct (two_cells_frame s
                (Store.CClosureR g f)
                (Store.CPartial _RightFlowing (Store.Ref (List.length s)) [] [])
                g Hg) as (F1 & F2 & F3 & F4 & F5).
    do 3 eexists. split; [apply rshift_store |].
    repeat (split; [eassumption |]). split.
    + simpl Store.reify. rewrite !Nat.eqb_refl, Hg, Hf. reflexivity.
    + split; [| reflexivity].
      apply binary_op_rightward; [exact Ht | discriminate].
  - destruct (two_cells_frame s
                (Store.CClosureL g f)
                (Store.CPartial _LeftFlowing (Store.Ref (List.length s)) [] [])
                g Hg) as (F1 & F2 & F3 & F4 & F5).
    do 3 eexists. split; [apply lshift_store |].
    repeat (split; [eassumption |]). split.
    + simpl Store.reify. rewrite !Nat.eqb_refl, Hg, Hf. reflexivity.
    + split; [| reflexivity]. apply binary_op_leftward. exact Ht.
Qed.

End Identity.

(** [g = cfun >> double]; after [g >> increment], [g(3)] is still 6 and
    the new function gives 7. *)
Lemma combine_leaves_original_scenario :
  exists s' g',
    @Store._RightFlowing.__rshift__ demo Store.demo_store (Store.Ref 0) (Store.Imm increment)
    = (s', Store.HReturn g')
    /\ g' <> Store.Ref 0
    /\ @Store.call demo Store.demo_store (Store.Ref 0) [OInt 3] []
       = Some (Return (OInt 6))
    /\ @Store.call demo s' (Store.Ref 0) [OInt 3] [] = Some (Return (OInt 6))
    /\ @Store.call demo s' g' [OInt 3] [] = Some (Return (OInt 7)).
Proof.
  destruct (@combine_leaves_original_unchanged demo Store.demo_store
              (Store.Ref 0) (Store.Imm increment)
              (OPartial _RightFlowing double [] []) increment
              eq_refl eq_refl) as (HR & _).
  destruct (HR eq_refl)
    as (s' & g' & vg' & Hs & _ & Hne & _ & _ & Hsame & Hnew & Hop & _).
  exists s', g'. split; [exact Hs |]. split; [exact Hne |].
  split; [reflexivity |]. split; [rewrite Hsame; reflexivity |].
  unfold Store.call. rewrite Hnew.
  injection Hop as <-. reflexivity.
Defined.

(** ** How chains compose *)

Section Algebra.
Context `{W : Foreign}.

Lemma chain_pipe_cfun (fs : list obj) :
  chain BitOr cfun fs = chain RShift cfun fs.
Proof.
  destruct fs as [|f fs]; [reflexivity |]. simpl chain.
  rewrite !binary_op_cfun. simpl flowing.
  destruct (partial_new _RightFlowing f) as [p|e] eqn:E; [| reflexivity].
  simpl bind. apply chain_pipe_rightward. exact (partial_new_type _ _ E).
Qed.

Lemma Forall_callable_rev (fs : list obj) :
  Forall (fun f => callable f = true) fs ->
  Forall (fun f => callable f = true) (rev fs).
Proof. apply Forall_rev. Qed.

(** Replacing a stretch [seg] of a run by one function that does what the
    stretch does. *)
Lemma run_fuse (pre seg post : list obj) (k : obj) (r : outcome) :
  (forall v, call1 k v = run seg (Return v)) ->
  run (pre ++ k :: post) r = run (pre ++ seg ++ post) r.
Proof.
  intros Hk. rewrite !run_app, run_cons. f_equal.
  rewrite (run_bind seg). apply bind_ext. exact Hk.
Qed.

Lemma run_order_fuse (op : binop) (pre seg post : list obj) (k : obj)
  (r : outcome) :
  (forall v, call1 k v = run (run_order op seg) (Return v)) ->
  run (run_order op (pre ++ k :: post)) r
  = run (run_order op (pre ++ seg ++ post)) r.
Proof.
  intros Hk. destruct op; simpl run_order in *; try (apply run_fuse; exact Hk).
  rewrite !rev_app_distr. simpl rev. rewrite <- !app_assoc. simpl app.
  apply run_fuse. exact Hk.
Qed.

(** X1. The caller's arguments go to the function that runs first.  For a
    chain of callables built with any operator, called with any positional
    and keyword arguments: the function that runs first receives exactly
    those arguments, and every later function receives the result before it
    as its only argument. *)
Theorem arguments_reach_first_function (op : binop) (fs : list obj)
  (f : obj) (rest : list obj) :
  Forall (fun f => callable f = true) fs ->
  run_order op fs = f :: rest ->
  exists g, chain op cfun fs = Return g
            /\ forall args kw, call g args kw = run rest (call f args kw).
Proof.
  intros Hall Hord. destruct op; simpl run_order in Hord.
  - assert (E : fs = (rev rest ++ [f])%list).
    { rewrite <- (rev_involutive fs), Hord. reflexivity. }
    subst fs. destruct (leftward_chain_args _ _ Hall) as (g & Hc & Hcall).
    exists g. split; [exact Hc |]. intros args kw.
    rewrite Hcall, rev_involutive. reflexivity.
  - subst fs. exact (rightward_chain_args Hall).
  - subst fs. rewrite chain_pipe_cfun. exact (rightward_chain_args Hall).
Qed.

(** X2. The two directions mirror each other: for callables, the chain
    [cfun << f1 << ... << fn] and the chain [cfun >> fn >> ... >> f1] are
    both built and give the same outcome for all positional and keyword
    arguments. *)
Theorem directions_mirror (fs : list obj) :
  fs <> [] -> Forall (fun f => callable f = true) fs ->
  exists gl gr,
    chain LShift cfun fs = Return gl
    /\ chain RShift cfun (rev fs) = Return gr
    /\ forall args kw, call gl args kw = call gr args kw.
Proof.
  intros Hne Hall.
  destruct (exists_last Hne) as (init & fn & ->).
  destruct (leftward_chain_args _ _ Hall) as (gl & Hl & Hlc).
  pose proof (Forall_callable_rev Hall) as Hrev.
  rewrite rev_app_distr in *. simpl app in *.
  destruct (rightward_chain_args Hrev) as (gr & Hr & Hrc).
  exists gl, gr. split; [exact Hl |]. split; [exact Hr |].
  intros args kw. rewrite Hlc, Hrc. reflexivity.
Qed.

(** X3. Any stretch of a chain can be fused.  In a chain of callables built
    with any operator, a stretch [seg] of consecutive operands may be
    replaced by one callable [k] that does what the stretch does in the
    chain's order: both chains are built and give the same outcome on every
    [x]. *)
Theorem segment_fusion (op : binop) (pre seg post : list obj) (k x : obj) :
  Forall (fun f => callable f = true) (pre ++ seg ++ post) ->
  (pre ++ seg ++ post)%list <> [] ->
  callable k = true ->
  (forall v, call1 k v = run (run_order op seg) (Return v)) ->
  exists g g',
    chain op cfun (pre ++ seg ++ post) = Return g
    /\ chain op cfun (pre ++ k :: post) = Return g'
    /\ call1 g x = call1 g' x.
Proof.
  intros Hall Hne Hck Hk.
  assert (Hall' : Forall (fun f => callable f = true) (pre ++ k :: post)).
  { apply Forall_app in Hall. destruct Hall as [Hpre Hsp].
    apply Forall_app in Hsp. destruct Hsp as [_ Hpost].
    apply Forall_app. split; [exact Hpre | constructor; assumption]. }
  assert (Hne' : (pre ++ k :: post)%list <> []) by (destruct pre; discriminate).
  destruct (chain_cfun op Hne Hall) as (g & Hc & _ & Hrun).
  destruct (chain_cfun op Hne' Hall') as (g' & Hc' & _ & Hrun').
  exists g, g'. split; [exact Hc |]. split; [exact Hc' |].
  rewrite Hrun, Hrun'. symmetry. apply run_order_fuse. exact Hk.
Qed.

(** X4. A function that returns its argument is neutral anywhere in a
    chain: with it inserted at any position of a non-empty chain of
    callables, built with any operator, the chain gives the same outcome on
    every [x]. *)
Theorem identity_is_neutral (op : binop) (pre post : list obj)
  (idf x : obj) :
  (forall v, call1 idf v = Return v) ->
  Forall (fun f => callable f = true) (pre ++ post) ->
  (pre ++ post)%list <> [] ->
  exists g g',
    chain op cfun (pre ++ idf :: post) = Return g
    /\ chain op cfun (pre ++ post) = Return g'
    /\ call1 g x = call1 g' x.
Proof.
  intros Hid Hall Hne.
  assert (Hc : callable idf = true)
    by exact (call_Return_callable _ _ _ (Hid ONone)).
  assert (Hall' : Forall (fun f => callable f = true) (pre ++ idf :: post)).
  { apply Forall_app in Hall. destruct Hall as [Hpre Hpost].
    apply Forall_app. split; [exact Hpre | constructor; assumption]. }
  assert (Hne' : (pre ++ idf :: post)%list <> []) by (destruct pre; discriminate).
  destruct (chain_cfun op Hne' Hall') as (g & Hg & _ & Hrun).
  destruct (chain_cfun op Hne Hall) as (g' & Hg' & _ & Hrun').
  exists g, g'. split; [exact Hg |]. split; [exact Hg' |].
  rewrite Hrun, Hrun'.
  apply (@run_order_fuse op pre [] post idf (Return x)).
  intros v. rewrite Hid. destruct op; reflexivity.
Qed.

(** X5. Composed functions compose.  Combining two chains of callables
    built with the same operator, with that operator, gives a function with
    the outcomes of the one chain over all the operands:
    [(cfun >> f1 >> f2) >> (cfun >> f3 >> f4)] is
    [cfun >> f1 >> f2 >> f3 >> f4] on every [x], and likewise for [<<] and
    [|]. *)
Theorem composed_functions_compose (op : binop) (fs gs : list obj) (x : obj) :
  fs <> [] -> gs <> [] ->
  Forall (fun f => callable f = true) fs ->
  Forall (fun f => callable f = true) gs ->
  exists g1 g2 g12 g,
    chain op cfun fs = Return g1
    /\ chain op cfun gs = Return g2
    /\ binary_op op g1 g2 = Return g12
    /\ chain op cfun (fs ++ gs) = Return g
    /\ call1 g12 x = call1 g x.
Proof.
  intros Hf Hg Hfs Hgs.
  destruct (chain_cfun op Hf Hfs) as (g1 & H1 & T1 & R1).
  destruct (chain_cfun op Hg Hgs) as (g2 & H2 & T2 & R2).
  assert (Hne : (fs ++ gs)%list <> []) by (destruct fs; [congruence | discriminate]).
  assert (Hall : Forall (fun f => callable f = true) (fs ++ gs))
    by (apply Forall_app; split; assumption).
  destruct (chain_cfun op Hne Hall) as (g & Hc & _ & R).
  exists g1, g2.
  destruct op; simpl flowing in *; simpl run_order in *.
  - eexists. exists g. split; [exact H1 |]. split; [exact H2 |].
    split; [apply binary_op_leftward; exact T1 |]. split; [exact Hc |].
    rewrite R. unfold call1 at 1. rewrite leftward_step.
    fold (call1 g2 x). rewrite R2, rev_app_distr, run_app.
    rewrite (run_bind (rev fs)). apply bind_ext. exact R1.
  - eexists. exists g. split; [exact H1 |]. split; [exact H2 |].
    split; [apply binary_op_rightward; [exact T1 | discriminate] |].
    split; [exact Hc |].
    rewrite R. unfold call1 at 1. rewrite rightward_step.
    fold (call1 g1 x). rewrite R1, run_app.
    rewrite (run_bind gs). apply bind_ext. exact R2.
  - eexists. exists g. split; [exact H1 |]. split; [exact H2 |].
    split; [apply binary_op_rightward; [exact T1 | discriminate] |].
    split; [exact Hc |].
    rewrite R. unfold call1 at 1. rewrite rightward_step.
    fold (call1 g1 x). rewrite R1, run_app.
    rewrite (run_bind gs). apply bind_ext. exact R2.
Qed.

Lemma partial_is_callable (g : obj) (c : pclass) :
  type_of g = Tpartial c -> callable g = true.
Proof. destruct g; try discriminate. reflexivity. Qed.

(** X6. Passing a chain through [cfun] switches its direction.  A leftward
    chain given to [cfun >>] as the first operand is continued rightward:
    the functions of the leftward chain run in its own order and the new
    operands after them; and a rightward chain given to [cfun <<] is
    continued leftward, the new operands running before it. *)
Theorem rewrap_switches_direction (fs hs : list obj) (x : obj) :
  fs <> [] -> Forall (fun f => callable f = true) fs ->
  (exists gl g,
      chain LShift cfun fs = Return gl
      /\ chain RShift cfun (gl :: hs) = Return g
      /\ type_of g = Tpartial _RightFlowing
      /\ call1 g x = run (rev fs ++ hs) (Return x))
  /\ (exists gr g,
        chain RShift cfun fs = Return gr
        /\ chain LShift cfun (gr :: hs) = Return g
        /\ type_of g = Tpartial _LeftFlowing
        /\ call1 g x = run (rev hs ++ fs) (Return x)).
Proof.
  intros Hne Hall. split.
  - destruct (chain_cfun LShift Hne Hall) as (gl & Hl & Tl & Rl).
    destruct (first_combine RShift _ (partial_is_callable _ Tl))
      as (p & Hp & Tp & Hcall).
    destruct (@chain_rightward _ RShift hs ltac:(discriminate) _ Tp)
      as (g & Hc & Tg & Hrun).
    exists gl, g. split; [exact Hl |]. simpl chain. rewrite Hp.
    split; [exact Hc |]. split; [exact Tg |].
    unfold call1. rewrite Hrun, Hcall. fold (call1 gl x).
    rewrite Rl, run_app. reflexivity.
  - destruct (chain_cfun RShift Hne Hall) as (gr & Hr & Tr & Rr).
    destruct (first_combine LShift _ (partial_is_callable _ Tr))
      as (p & Hp & Tp & Hcall).
    destruct (chain_leftward hs _ Tp) as (g & Hc & Tg & Hrun).
    exists gr, g. split; [exact Hr |]. simpl chain. rewrite Hp.
    split; [exact Hc |]. split; [exact Tg |].
    rewrite Hrun, nested_run, run_app, (run_bind fs).
    apply bind_ext. intros v. unfold call1. rewrite Hcall. apply Rr.
Qed.

(** X7. Only the first operand is checked when a chain is built.  With a
    callable first operand the chain is built whatever the later operands
    are, and is a callable composed function of the operator's direction;
    with a first operand that is not callable, building raises the
    constructor's [TypeError] whatever follows. *)
Theorem only_first_operand_checked (op : binop) (f1 : obj) (fs : list obj) :
  (callable f1 = true ->
   exists g, chain op cfun (f1 :: fs) = Return g
             /\ type_of g = Tpartial (flowing op)
             /\ callable g = true)
  /\ (callable f1 = false ->
      chain op cfun (f1 :: fs)
      = Raise (TypeError "the first argument must be callable")).
Proof.
  split; intros Hf; simpl chain.
  - destruct (first_combine op _ Hf) as (p & Hp & Tp & _). rewrite Hp.
    simpl bind.
    assert (E : exists g, chain op p fs = Return g
                          /\ type_of g = Tpartial (flowing op)).
    { destruct op; simpl flowing in *.
      - destruct (chain_leftward fs _ Tp) as (g & Hc & Tg & _). eauto.
      - destruct (@chain_rightward _ RShift fs ltac:(discriminate) _ Tp)
          as (g & Hc & Tg & _). eauto.
      - destruct (@chain_rightward _ BitOr fs ltac:(discriminate) _ Tp)
          as (g & Hc & Tg & _). eauto. }
    destruct E as (g & Hc & Tg). exists g.
    split; [exact Hc |]. split; [exact Tg |].
    exact (partial_is_callable _ Tg).
  - rewrite binary_op_cfun, (partial_new_not_callable _ _ Hf). reflexivity.
Qed.

End Algebra.

Lemma arguments_reach_first_function_scenario :
  exists g, @chain demo LShift cfun [double; increment] = Return g
            /\ @call demo g [OInt 3] [] = Return (OInt 8)
            /\ @call demo g [OInt 3; OInt 4] []
               = Raise (TypeError "wrong number of arguments")
            /\ @call demo g [OInt 3] [("key"%string, ONone)]
               = Raise (TypeError "wrong number of arguments").
Proof.
  destruct (@arguments_reach_first_function demo LShift [double; increment]
              increment [double]) as (g & Hc & Hcall).
  - repeat constructor.
  - reflexivity.
  - exists g. split; [exact Hc |]. rewrite !Hcall.
    split; [reflexivity |]. split; reflexivity.
Defined.

Lemma directions_mirror_scenario :
  exists gl gr,
    @chain demo LShift cfun [double; increment] = Return gl
    /\ @chain demo RShift cfun [increment; double] = Return gr
    /\ @call demo gl [OInt 3] [] = @call demo gr [OInt 3] [].
Proof.
  destruct (@directions_mirror demo [double; increment])
    as (gl & gr & Hl & Hr & Hcall).
  - discriminate.
  - repeat constructor.
  - exists gl, gr. split; [exact Hl |]. split; [exact Hr | apply Hcall].
Defined.

Lemma segment_fusion_scenario :
  exists g g',
    @chain demo LShift cfun [increment; double; increment; double] = Return g
    /\ @chain demo LShift cfun [increment; increment_double; double]
       = Return g'
    /\ @call1 demo g (OInt 3) = @call1 demo g' (OInt 3).
Proof.
  apply (@segment_fusion demo LShift [increment] [double; increment] [double]
           increment_double (OInt 3)).
  - repeat constructor.
  - discriminate.
  - reflexivity.
  - intros v. destruct v; reflexivity.
Defined.

Lemma identity_is_neutral_scenario :
  exists g g',
    @chain demo RShift cfun [double; identity; increment] = Return g
    /\ @chain demo RShift cfun [double; increment] = Return g'
    /\ @call1 demo g (OInt 3) = @call1 demo g' (OInt 3).
Proof.
  apply (@identity_is_neutral demo RShift [double] [increment] identity
           (OInt 3)).
  - intros v. destruct v; reflexivity.
  - repeat constructor.
  - discriminate.
Defined.

Lemma composed_functions_compose_scenario :
  exists g1 g2 g12 g,
    @chain demo RShift cfun [double; increment] = Return g1
    /\ @chain demo RShift cfun [double] = Return g2
    /\ @binary_op demo RShift g1 g2 = Return g12
    /\ @chain demo RShift cfun [double; increment; double] = Return g
    /\ @call1 demo g12 (OInt 3) = @call1 demo g (OInt 3).
Proof.
  apply (@composed_functions_compose demo RShift [double; increment] [double]
           (OInt 3)).
  - discriminate.
  - discriminate.
  - repeat constructor.
  - repeat constructor.
Defined.

Lemma rewrap_switches_direction_scenario :
  exists gl g,
    @chain demo LShift cfun [double; increment] = Return gl
    /\ @chain demo RShift cfun [gl; double] = Return g
    /\ @call1 demo g (OInt 3) = Return (OInt 16).
Proof.
  destruct (@rewrap_switches_direction demo [double; increment] [double]
              (OInt 3)) as ((gl & g & Hl & Hc & _ & Hcall) & _).
  - discriminate.
  - repeat constructor.
  - exists gl, g. split; [exact Hl |]. split; [exact Hc |].
    rewrite Hcall. reflexivity.
Defined.

(** ** Operators in the store *)

Section StoreOperators.
Context `{W : Foreign}.

Lemma reify_Imm (s : Store.store) (o : obj) :
  Store.reify s (Store.Imm o) = Some o.
Proof. destruct s; reflexivity. Qed.

Lemma extends_app (new s : Store.store) : Store.extends s (new ++ s).
Proof.
  induction new as [|c new IH]; [intros a c Hl; exact Hl |].
  eapply extends_trans; [exact IH | apply extends_cons].
Qed.

Lemma reify_app (new s : Store.store) (r : Store.ref) (v : obj) :
  Store.reify s r = Some v -> Store.reify (new ++ s) r = Some v.
Proof.
  intros Hr. induction new as [|c new IH]; [exact Hr |].
  simpl app. apply reify_cons. exact IH.
Qed.

Section Monotone.
Variables rec rec' : Store.ref -> option obj.
Hypothesis Hrec : forall r v, rec r = Some v -> rec' r = Some v.

Lemma reify_list_mono (rs : list Store.ref) (vs : list obj) :
  Store.reify_list rec rs = Some vs -> Store.reify_list rec' rs = Some vs.
Proof.
  revert vs. induction rs as [|r rs IH]; intros vs; simpl; [auto |].
  destruct (rec r) as [v|] eqn:Er; [| discriminate].
  destruct (Store.reify_list rec rs) as [vs'|]; [| discriminate].
  intros [= <-]. apply Hrec in Er. rewrite Er.
  erewrite IH by reflexivity. reflexivity.
Qed.

Lemma reify_kw_mono (kw : list (string * Store.ref)) (vs : kwargs) :
  Store.reify_kw rec kw = Some vs -> Store.reify_kw rec' kw = Some vs.
Proof.
  revert vs. induction kw as [|[k r] kw IH]; intros vs; simpl; [auto |].
  destruct (rec r) as [v|] eqn:Er; [| discriminate].
  destruct (Store.reify_kw rec kw) as [vs'|]; [| discriminate].
  intros [= <-]. apply Hrec in Er. rewrite Er.
  erewrite IH by reflexivity. reflexivity.
Qed.

Lemma reify_cell_mono (c : Store.cell) (v : obj) :
  Store.reify_cell rec c = Some v -> Store.reify_cell rec' c = Some v.
Proof.
  destruct c as [a b|a b|cls f args kw]; simpl.
  - destruct (rec a) eqn:Ea; [| discriminate].
    destruct (rec b) eqn:Eb; [| discriminate].
    intros [= <-]. apply Hrec in Ea, Eb. rewrite Ea, Eb. reflexivity.
  - destruct (rec a) eqn:Ea; [| discriminate].
    destruct (rec b) eqn:Eb; [| discriminate].
    intros [= <-]. apply Hrec in Ea, Eb. rewrite Ea, Eb. reflexivity.
  - destruct (rec f) eqn:Ef; [| discriminate].
    destruct (Store.reify_list rec args) eqn:Ea; [| discriminate].
    destruct (Store.reify_kw rec kw) eqn:Ek; [| discriminate].
    intros [= <-].
    apply Hrec in Ef. apply reify_list_mono in Ea. apply reify_kw_mono in Ek.
    rewrite Ef, Ea, Ek. reflexivity.
Qed.

End Monotone.

(** A reference that stands for a value is the address of a cell whose
    fields stand for the parts of the value. *)
Lemma reify_lookup (s : Store.store) (a : nat) (v : obj) :
  Store.reify s (Store.Ref a) = Some v ->
  exists c, Store.lookup s a = Some c
            /\ Store.reify_cell (Store.reify s) c = Some v.
Proof.
  induction s as [|c0 s IH]; simpl; [discriminate |].
  destruct (Nat.eqb a (List.length s)); intros Hr.
  - exists c0. split; [reflexivity |].
    apply (@reify_cell_mono (Store.reify s)); [| exact Hr].
    intros r v0. apply reify_cons.
  - destruct (IH Hr) as (c & Hl & Hc). exists c. split; [exact Hl |].
    apply (@reify_cell_mono (Store.reify s)); [| exact Hc].
    intros r v0. apply reify_cons.
Qed.

Lemma type_of_reify (s : Store.store) (r : Store.ref) (v : obj) :
  Store.reify s r = Some v -> Store.type_of s r = Some (type_of v).
Proof.
  destruct r as [o|a]; [rewrite reify_Imm; intros [= <-]; reflexivity |].
  intros Hr. destruct (reify_lookup _ _ Hr) as (c & Hl & Hc).
  simpl. rewrite Hl. destruct c as [x y|x y|cls f args kw]; simpl in Hc.
  - destruct (Store.reify s x), (Store.reify s y); try discriminate.
    injection Hc as <-. reflexivity.
  - destruct (Store.reify s x), (Store.reify s y); try discriminate.
    injection Hc as <-. reflexivity.
  - destruct (Store.reify s f), (Store.reify_list (Store.reify s) args),
      (Store.reify_kw (Store.reify s) kw); try discriminate.
    injection Hc as <-. reflexivity.
Qed.

Lemma callable_reify (s : Store.store) (r : Store.ref) (v : obj) :
  Store.reify s r = Some v -> Store.callable s r = callable v.
Proof.
  destruct r as [o|a]; [rewrite reify_Imm; intros [= <-]; reflexivity |].
  intros Hr. destruct (reify_lookup _ _ Hr) as (c & Hl & Hc).
  simpl. rewrite Hl. destruct c as [x y|x y|cls f args kw]; simpl in Hc.
  - destruct (Store.reify s x), (Store.reify s y); try discriminate.
    injection Hc as <-. reflexivity.
  - destruct (Store.reify s x), (Store.reify s y); try discriminate.
    injection Hc as <-. reflexivity.
  - destruct (Store.reify s f), (Store.reify_list (Store.reify s) args),
      (Store.reify_kw (Store.reify s) kw); try discriminate.
    injection Hc as <-. reflexivity.
Qed.

Lemma reify_list_Imm (rec : Store.ref -> option obj) (vs : list obj) :
  (forall o, rec (Store.Imm o) = Some o) ->
  Store.reify_list rec (map Store.Imm vs) = Some vs.
Proof.
  intros Hrec. induction vs as [|v vs IH]; simpl; [reflexivity |].
  rewrite Hrec, IH. reflexivity.
Qed.

Lemma reify_kw_Imm (rec : Store.ref -> option obj) (kw : kwargs) :
  (forall o, rec (Store.Imm o) = Some o) ->
  Store.reify_kw rec (map (fun kv => (fst kv, Store.Imm (snd kv))) kw)
  = Some kw.
Proof.
  intros Hrec. induction kw as [|[k v] kw IH]; simpl; [reflexivity |].
  rewrite Hrec, IH. reflexivity.
Qed.

Lemma reify_top (s : Store.store) (c : Store.cell) :
  Store.reify (c :: s) (Store.Ref (List.length s))
  = Store.reify_cell (Store.reify s) c.
Proof. simpl. rewrite Nat.eqb_refl. reflexivity. Qed.

Lemma fresh_top (s : Store.store) (n : nat) :
  Store.fresh s (Store.Ref (n + List.length s)).
Proof. apply lookup_beyond. lia. Qed.

(** The constructor in the store does what the constructor of the value
    model does, and creates one cell when it succeeds. *)
Lemma partial_new_sim (s : Store.store) (cls : pclass) (func : Store.ref)
  (vf : obj) :
  Store.reify s func = Some vf ->
  exists new r,
    Store.partial_new s cls func = ((new ++ s)%list, r)
    /\ Store.agrees (new ++ s) r (partial_new cls vf)
    /\ (forall e, r = Store.HRaise e -> new = [])
    /\ (forall p, r = Store.HReturn p -> Store.fresh s p).
Proof.
  intros Hf. unfold Store.partial_new, partial_new.
  rewrite (callable_reify _ _ Hf).
  destruct (callable vf) eqn:Hc.
  - assert (Hfresh : forall p, Store.HReturn (Store.Ref (List.length s))
                               = Store.HReturn p -> Store.fresh s p).
    { intros p [= <-]. apply (fresh_top s 0). }
    destruct func as [o|a].
    + rewrite reify_Imm in Hf. injection Hf as ->.
      destruct vf; try discriminate Hc;
        (eexists [_], _; split; [reflexivity |];
         split; [| split; [discriminate | exact Hfresh]];
         unfold Store.agrees; simpl app; rewrite reify_top;
         simpl Store.reify_cell; rewrite ?reify_Imm; try reflexivity).
      rewrite reify_list_Imm, reify_kw_Imm by (apply reify_Imm).
      reflexivity.
    + destruct (reify_lookup _ _ Hf) as (c & Hl & Hcell). rewrite Hl.
      destruct c as [x y|x y|c0 fn pa pk]; simpl in Hcell;
        (eexists [_], _; split; [reflexivity |];
         split; [| split; [discriminate | exact Hfresh]];
         unfold Store.agrees; simpl app; rewrite reify_top;
         simpl Store.reify_cell).
      * rewrite Hf.
        destruct (Store.reify s x), (Store.reify s y); try discriminate.
        injection Hcell as <-. reflexivity.
      * rewrite Hf.
        destruct (Store.reify s x), (Store.reify s y); try discriminate.
        injection Hcell as <-. reflexivity.
      * destruct (Store.reify s fn), (Store.reify_list (Store.reify s) pa),
          (Store.reify_kw (Store.reify s) pk); try discriminate.
        injection Hcell as <-. reflexivity.
  - exists [], (Store.HRaise (TypeError "the first argument must be callable")).
    split; [reflexivity |]. split; [reflexivity |].
    split; [reflexivity | discriminate].
Qed.

(** An instance created on top of the closure it holds stands for the
    composed function of the value model. *)
Lemma flowing_sim (cls : pclass) (s : Store.store) (cl : Store.cell)
  (v : obj) :
  Store.reify_cell (Store.reify s) cl = Some v ->
  Store.agrees
    (Store.CPartial cls (Store.Ref (List.length s)) [] [] :: cl :: s)
    (Store.HReturn (Store.Ref (S (List.length s))))
    (Return (OPartial cls v [] [])).
Proof.
  intros Hcl. unfold Store.agrees.
  simpl Store.reify. rewrite !Nat.eqb_refl, Hcl. reflexivity.
Qed.

Lemma binary_op_sim (op : binop) (s : Store.store) (a b : Store.ref)
  (va vb : obj) :
  Store.reify s a = Some va -> Store.reify s b = Some vb ->
  exists new r,
    Store.binary_op op s a b = ((new ++ s)%list, r)
    /\ Store.agrees (new ++ s) r (binary_op op va vb)
    /\ (forall e, r = Store.HRaise e -> new = [])
    /\ (forall p, r = Store.HReturn p ->
                  Store.fresh s p \/ exists v, p = Store.Imm v).
Proof.
  intros Ha Hb. unfold Store.binary_op. rewrite (type_of_reify _ _ Ha).
  assert (Fallback :
    exists new r,
      (s, Store.lift (binary_op op va vb)) = ((new ++ s)%list, r)
      /\ Store.agrees (new ++ s) r (binary_op op va vb)
      /\ (forall e, r = Store.HRaise e -> new = [])
      /\ (forall p, r = Store.HReturn p ->
                    Store.fresh s p \/ exists v, p = Store.Imm v)).
  { exists [], (Store.lift (binary_op op va vb)).
    split; [reflexivity |]. split; [| split; [reflexivity |]].
    - destruct (binary_op op va vb); simpl; [apply reify_Imm | reflexivity].
    - intros p Hp. right. destruct (binary_op op va vb); simpl in Hp;
        [injection Hp as <-; eauto | discriminate]. }
  assert (New : forall cls,
    exists new r,
      Store.partial_new s cls b = ((new ++ s)%list, r)
      /\ Store.agrees (new ++ s) r (partial_new cls vb)
      /\ (forall e, r = Store.HRaise e -> new = [])
      /\ (forall p, r = Store.HReturn p ->
                    Store.fresh s p \/ exists v, p = Store.Imm v)).
  { intros cls. destruct (partial_new_sim s cls _ Hb) as (new & r & E & A & F & G).
    exists new, r. repeat (split; [assumption |]). intros p Hp. left. auto. }
  assert (Two : forall cls cl v,
    Store.reify_cell (Store.reify s) cl = Some v ->
    binary_op op va vb = Return (OPartial cls v [] []) ->
    exists new r,
      (Store.CPartial cls (Store.Ref (List.length s)) [] [] :: cl :: s,
       Store.HReturn (Store.Ref (S (List.length s))))
      = ((new ++ s)%list, r)
      /\ Store.agrees (new ++ s) r (binary_op op va vb)
      /\ (forall e, r = Store.HRaise e -> new = [])
      /\ (forall p, r = Store.HReturn p ->
                    Store.fresh s p \/ exists v, p = Store.Imm v)).
  { intros cls cl v Hcl Hv. eexists [_; _], _. split; [reflexivity |].
    split; [| split; [discriminate |]].
    - rewrite Hv. simpl app. apply flowing_sim. exact Hcl.
    - intros p [= <-]. left. apply (fresh_top s 1). }
  destruct va; simpl type_of in *; simpl Store.method;
    try (destruct op; simpl Store.method; rewrite ?Ha, ?Hb; exact Fallback).
  - destruct cls; destruct op; simpl Store.method;
      try (rewrite ?Ha, ?Hb; exact Fallback).
    + rewrite lshift_store. eapply Two.
      * simpl. rewrite Ha, Hb. reflexivity.
      * apply binary_op_leftward. reflexivity.
    + rewrite rshift_store. eapply Two.
      * simpl. rewrite Ha, Hb. reflexivity.
      * apply binary_op_rightward; [reflexivity | discriminate].
    + unfold Store._RightFlowing.__or__. rewrite rshift_store. eapply Two.
      * simpl. rewrite Ha, Hb. reflexivity.
      * apply binary_op_rightward; [reflexivity | discriminate].
  - fold cfun. rewrite binary_op_cfun. destruct op; apply New.
Qed.

Lemma chain_sim (op : binop) (fs : list Store.ref) :
  forall s start vstart vs,
    Store.reify s start = Some vstart ->
    Store.reify_list (Store.reify s) fs = Some vs ->
    exists new r,
      Store.chain op s start fs = ((new ++ s)%list, r)
      /\ Store.agrees (new ++ s) r (chain op vstart vs).
Proof.
  induction fs as [|f fs IH]; intros s start vstart vs Hs Hfs; simpl in Hfs.
  - injection Hfs as <-. exists [], (Store.HReturn start).
    split; [reflexivity | exact Hs].
  - destruct (Store.reify s f) as [vf|] eqn:Hf; [| discriminate].
    destruct (Store.reify_list (Store.reify s) fs) as [vs'|] eqn:Hl;
      [| discriminate].
    injection Hfs as <-.
    destruct (binary_op_sim op s start f Hs Hf) as (new1 & r1 & E1 & A1 & _ & _).
    simpl Store.chain. rewrite E1. simpl chain.
    unfold Store.agrees in A1.
    destruct r1 as [g|e]; destruct (binary_op op vstart vf) as [vg|e'];
      try contradiction.
    + simpl bind.
      assert (Hl' : Store.reify_list (Store.reify (new1 ++ s)) fs = Some vs').
      { apply (@reify_list_mono (Store.reify s)); [| exact Hl].
        intros r v. apply reify_app. }
      destruct (IH _ _ _ _ A1 Hl') as (new2 & r & E2 & A2).
      exists (new2 ++ new1)%list, r. rewrite <- app_assoc.
      split; assumption.
    + subst e'. exists new1, (Store.HRaise e). split; reflexivity.
Qed.


(** X9. Building a chain in the store is building it in the value model.
    For operands that stand for values, the chain built from any start
    object with any operator leaves every existing cell and the value of
    every existing reference as they were, and ends in the outcome of the
    chain of the value model: the same exception, or a reference that
    stands for the composed function the value model returns. *)
Theorem chains_only_allocate (op : binop) (s : Store.store)
  (start : Store.ref) (fs : list Store.ref) (vstart : obj) (vs : list obj) :
  Store.reify s start = Some vstart ->
  Store.reify_list (Store.reify s) fs = Some vs ->
  exists s' r,
    Store.chain op s start fs = (s', r)
    /\ Store.extends s s'
    /\ (forall r0 v0, Store.reify s r0 = Some v0 ->
                      Store.reify s' r0 = Some v0)
    /\ Store.agrees s' r (chain op vstart vs).
Proof.
  intros Hs Hfs.
  destruct (chain_sim op fs s start Hs Hfs) as (new & r & E & A).
  exists (new ++ s)%list, r. split; [exact E |].
  split; [apply extends_app |]. split; [intros r0 v0; apply reify_app |].
  exact A.
Qed.

End StoreOperators.


(** [cfun >> g >> increment] with [g] the object at address 0: [g] stays,
    and the new function gives [increment(double(3))]. *)
Lemma chains_only_allocate_scenario :
  exists s' p,
    @Store.chain demo RShift Store.demo_store (Store.Imm cfun)
      [Store.Ref 0; Store.Imm increment] = (s', Store.HReturn p)
    /\ @Store.call demo s' (Store.Ref 0) [OInt 3] [] = Some (Return (OInt 6))
    /\ @Store.call demo s' p [OInt 3] [] = Some (Return (OInt 7)).
Proof.
  destruct (@chains_only_allocate demo RShift Store.demo_store
              (Store.Imm cfun) [Store.Ref 0; Store.Imm increment]
              cfun [OPartial _RightFlowing double [] []; increment]
              eq_refl eq_refl) as (s' & r & E & _ & P & A).
  destruct r as [p|e]; [| contradiction].
  exists s', p. split; [exact E |]. split.
  - unfold Store.call.
    rewrite (P (Store.Ref 0) (OPartial _RightFlowing double [] []) eq_refl).
    reflexivity.
  - unfold Store.call. unfold Store.agrees in A. simpl in A. rewrite A.
    reflexivity.
Defined.
